(** * randperm: pseudo-random permutation of the lines of a file

    A shallow embedding of [Main.cpp] (ReadStrings, GetEpochTime, Randomize,
    WriteStrings, main) together with the properties its description
    states about it. *)

From Equations Require Import Equations.
From Equations.Prop Require Import Logic.
From Stdlib Require Import ZArith QArith Ascii String.
From stdpp Require Import base tactics option list gmap strings.

Local Open Scope nat_scope.

(** ** Vectors

    A [std::vector<t>] is a [list t]; [v[i]] is the list lookup [v !! i].
    [operator[]] does no bounds check: an index past the end is undefined
    behaviour, which the loops below report as [None]. *)

Section Vector.
Context {A : Type}.

(** [std::swap(v[i], v[j])]: the two slots exchange their contents.  Both
    references are taken before anything is written, and when they alias
    ([i = j]) the exchange leaves the slot as it was. *)
Definition swap (v : list A) (i j : nat) : list A :=
  match v !! i, v !! j with
  | Some x, Some y => <[j := x]> (<[i := y]> v)
  | _, _ => v
  end.

Lemma swap_length v i j : length (swap v i j) = length v.
Proof.
  unfold swap. destruct (v !! i), (v !! j); trivial.
  by rewrite !length_insert.
Qed.

End Vector.

(** ** The shuffle *)

Section Shuffle.
Context {A G : Type}.

(** [std::uniform_int_distribution<size_t>(a, b)(g)]: one draw of an
    integer from the engine state [g], giving the value and the engine
    state after the draw.  The distribution and the engine belong to the
    C++ library, so they are parameters here. *)
Variable uniform_int_distribution : nat → nat → G → nat * G.

(** The [for] loop of [Randomize], entered with loop variable [i]. *)
Equations? Randomize_loop (i : nat) (stdRandom : G) (v : list A)
  : option (list A * G) by wf (length v - i) lt :=
  Randomize_loop i stdRandom v with lt_dec i (length v) := {
    | right _ => Some (v, stdRandom)
    | left _ with uniform_int_distribution 0 i stdRandom := {
        | (j, stdRandom') with lt_dec j (length v) := {
            | left _ => Randomize_loop (S i) stdRandom' (swap v i j)
            | right _ => None } } }.
Proof. rewrite swap_length. lia. Qed.

End Shuffle.

(** [GetEpochTime<unsigned>()]: [now] is what [std::time(0)] returns, a
    count of whole seconds; the [static_cast] to a 32-bit [unsigned] keeps
    it modulo [2^32]. *)
Definition GetEpochTime (now : Z) : Z := (now mod 2 ^ 32)%Z.

Section Randomize.
Context {A G : Type}.

(** [std::default_random_engine::seed]: the engine state a seed gives. *)
Variable seed : Z → G.
Variable uniform_int_distribution : nat → nat → G → nat * G.

(** [Randomize(v)], run when the clock reads [now].  The engine is a local
    of the function, so only the vector comes back. *)
Definition Randomize (now : Z) (v : list A) : option (list A) :=
  let stdRandom := seed (GetEpochTime now) in
  fst <$> Randomize_loop uniform_int_distribution 0 stdRandom v.

End Randomize.

(** ** Files and streams

    A [std::string] and the text of a file are sequences of [char]:
    [list ascii].  The streams are seen as the program sees them, after
    whatever translation of line ends the platform does in text mode. *)

Definition newline : ascii := "010"%char.

(** The characters [std::getline] extracts from a stream that is not at its
    end: the line up to the first line break, and what stays in the stream
    (the line break is extracted and dropped). *)
Fixpoint getline_extract (infile : list ascii) : list ascii * list ascii :=
  match infile with
  | [] => ([], [])
  | c :: rest =>
      if decide (c = newline) then ([], rest)
      else let '(strLine, rest') := getline_extract rest in (c :: strLine, rest')
  end.

(** [std::getline(infile, strLine)] as the [while] condition reads it: at the
    end of the stream nothing is extracted, the stream fails and the result
    is false ([None]); otherwise the line and the rest of the stream. *)
Definition getline (infile : list ascii) : option (list ascii * list ascii) :=
  match infile with
  | [] => None
  | _ :: _ => Some (getline_extract infile)
  end.

Lemma getline_extract_length infile :
  length (getline_extract infile).2 ≤ length infile.
Proof.
  induction infile as [|c rest IH]; simpl; [lia|].
  case_decide; simpl; [lia|].
  destruct (getline_extract rest); simpl in *; lia.
Qed.

Lemma getline_shorter infile strLine rest :
  getline infile = Some (strLine, rest) → length rest < length infile.
Proof.
  destruct infile as [|c s]; [done|].
  intros [= Hx]. pose proof (getline_extract_length s) as Hs.
  revert Hx. simpl. case_decide.
  - intros [= <- <-]. lia.
  - destruct (getline_extract s). intros [= <- <-]. simpl in *. lia.
Qed.

(** The [while] loop of [ReadStrings] over the open stream. *)
Equations? ReadStrings_loop (infile : list ascii) (v : list (list ascii))
  : list (list ascii) by wf (length infile) lt :=
  ReadStrings_loop infile v with inspect (getline infile) := {
    | exist _ None _ => v
    | exist _ (Some (strLine, rest)) _ with decide (strLine = []) := {
        | left _ => ReadStrings_loop rest v
        | right _ => ReadStrings_loop rest (v ++ [strLine]) } }.
Proof. all: by eapply getline_shorter. Qed.

(** The [for] loop of [WriteStrings] over the open stream: [outfile] is
    what has been written so far. *)
Fixpoint WriteStrings_loop (outfile : list ascii) (v : list (list ascii))
  : list ascii :=
  match v with
  | [] => outfile
  | s :: v' => WriteStrings_loop (outfile ++ s ++ [newline]) v'
  end.

(** The files of the working directory by name, and which names the
    process may open for reading and for writing. *)
Record filesystem := FileSystem {
  contents : gmap string (list ascii);
  readable : string → bool;
  writable : string → bool
}.

(** [std::ifstream infile(fname)]: the text of the file, or [None] when the
    file is missing or may not be read (the stream is then in a failed
    state, and every [getline] on it is false). *)
Definition ifstream (fs : filesystem) (fname : string) : option (list ascii) :=
  if readable fs fname then contents fs !! fname else None.

(** [std::ofstream outfile(fname)]: the file is created or truncated; [None]
    when it may not be written (every [<<] on the stream then does
    nothing). *)
Definition ofstream (fs : filesystem) (fname : string) : option filesystem :=
  if writable fs fname
  then Some (FileSystem (<[fname := []]> (contents fs)) (readable fs) (writable fs))
  else None.

(** [ReadStrings(fname, v)]; the result is [v] on return. *)
Definition ReadStrings (fs : filesystem) (fname : string)
    (v : list (list ascii)) : list (list ascii) :=
  let v := [] in
  match ifstream fs fname with
  | Some infile => ReadStrings_loop infile v
  | None => v
  end.

(** [WriteStrings(fname, v)]; the result is the file system on return. *)
Definition WriteStrings (fs : filesystem) (fname : string)
    (v : list (list ascii)) : filesystem :=
  match ofstream fs fname with
  | Some fs' =>
      FileSystem (<[fname := WriteStrings_loop [] v]> (contents fs'))
        (readable fs') (writable fs')
  | None => fs
  end.

Section Main.
Context {G : Type}.
Variable seed : Z → G.
Variable uniform_int_distribution : nat → nat → G → nat * G.

(** [main]: the file system it leaves and its exit code; [None] when the
    shuffle indexes past the end of the vector. [argc] and [argv] are not
    read. *)
Definition main (fs : filesystem) (now : Z) : option (filesystem * Z) :=
  let vecStrings := [] in
  let vecStrings := ReadStrings fs "Input.txt" vecStrings in
  vecStrings ← Randomize seed uniform_int_distribution now vecStrings;
  Some (WriteStrings fs "Output.txt" vecStrings, 0%Z).

End Main.

(** ** Generators used to exercise the shuffle *)

(** Forced draws: the generator state is the list of values still to be
    handed out, whatever range is asked for (the lower bound once the list
    is used up). *)
Definition scripted (a b : nat) (js : list nat) : nat * list nat :=
  match js with
  | [] => (a, [])
  | j :: js' => (j, js')
  end.

(** A generator whose every draw from [[a, b]] is [b]. *)
Definition draw_upper (a b : nat) (g : unit) : nat * unit := (b, g).

(** A generator that also records, in order, the range of every draw asked
    of it. *)
Definition logged {G : Type} (draw : nat → nat → G → nat * G) (a b : nat)
    (s : G * list (nat * nat)) : nat * (G * list (nat * nat)) :=
  ((draw a b s.1).1, ((draw a b s.1).2, s.2 ++ [(a, b)])).

(** A small concrete engine: the recurrence of [std::minstd_rand0], with its
    seeding rule, and a draw that reduces the engine's next output into
    [[a, b]] by a remainder. *)
Definition minstd_rand0 (x : Z) : Z := ((16807 * x) mod 2147483647)%Z.

Definition minstd_seed (s : Z) : Z :=
  if decide ((s mod 2147483647)%Z = 0%Z) then 1%Z else (s mod 2147483647)%Z.

Definition modulo_draw (a b : nat) (x : Z) : nat * Z :=
  (a + Z.to_nat (minstd_rand0 x mod Z.of_nat (S (b - a))), minstd_rand0 x).

(** The contract of [std::uniform_int_distribution]: a draw from [[a, b]]
    lies in [[a, b]]. *)
Definition in_range {G : Type} (draw : nat → nat → G → nat * G) : Prop :=
  ∀ a b g, a ≤ b → a ≤ (draw a b g).1 ≤ b.

(** ** The shuffle as its description words it *)

Section ShuffleSpec.
Context {A G : Type}.
Variable draw : nat → nat → G → nat * G.

(** The elements at positions [i] and [j] exchanged; both positions must
    exist. *)
Definition exchange (v : list A) (i j : nat) : option (list A) :=
  x ← v !! i; y ← v !! j;
  Some (imap (λ k z, if decide (k = i) then y else if decide (k = j) then x else z) v).

(** Step [i]: draw [j] from [[0, i]], then exchange positions [i] and [j]. *)
Definition spec_step (st : option (list A * G)) (i : nat) : option (list A * G) :=
  '(v, g) ← st;
  let '(j, g') := draw 0 i g in
  v' ← exchange v i j; Some (v', g').

(** The steps for [i] from [0] to [n - 1], in increasing order. *)
Definition spec_shuffle (g : G) (v : list A) : option (list A * G) :=
  foldl spec_step (Some (v, g)) (seq 0 (length v)).

End ShuffleSpec.

(** The transposition of the positions [i] and [j]. *)
Definition transpose (i j k : nat) : nat :=
  if decide (k = i) then j else if decide (k = j) then i else k.

(** The exchanges of steps [i], [i + 1], ... with the drawn values [js]. *)
Fixpoint exchanges {A : Type} (i : nat) (js : list nat) (v : list A) : list A :=
  match js with
  | [] => v
  | j :: js' => exchanges (S i) js' (swap v i j)
  end.

(** The draws [js] are the first [n] of a run: [j_k] lies in [[0, k]]. *)
Definition script (n : nat) (js : list nat) : Prop :=
  length js = n ∧ ∀ k j, js !! k = Some j → j ≤ k.

(** All sequences of draws [j_0, ..., j_(n-1)] with [j_i] in [[0, i]]. *)
Fixpoint draw_seqs (n : nat) : list (list nat) :=
  match n with
  | 0 => [[]]
  | S n' => js ← draw_seqs n'; j ← seq 0 (S n'); [js ++ [j]]
  end.

(** The values a generator hands out at the steps [i], ..., [i + n - 1]
    of a run that starts in the state [g]. *)
Fixpoint draws {G : Type} (draw : nat → nat → G → nat * G) (i n : nat) (g : G)
  : list nat :=
  match n with
  | 0 => []
  | S n' => (draw 0 i g).1 :: draws draw (S i) n' (draw 0 i g).2
  end.

(** The vector the shuffle leaves when its draws are forced to [js]. *)
Definition outcome {A : Type} (js : list nat) (v : list A) : option (list A) :=
  fst <$> Randomize_loop scripted 0 js v.

(** The probability that the shuffle of [v] leaves [v'], when at every step
    [i] each value of [[0, i]] is as likely as any other, independently of
    the earlier draws: all the sequences of [draw_seqs] are then equally
    likely, and the probability is the share of them that lead to [v']. *)
Definition probability {A : Type} `{EqDecision A} (v v' : list A) : Q :=
  Z.of_nat (length (filter (λ js, outcome js v = Some v') (draw_seqs (length v))))
  # Pos.of_nat (length (draw_seqs (length v))).

(** ** Texts as sequences of lines *)

(** The pieces of a text between its line breaks: a text with [k] line
    breaks has [k + 1] pieces, the last one being what follows the last
    line break. *)
Fixpoint pieces (s : list ascii) : list (list ascii) :=
  match s with
  | [] => [[]]
  | c :: s' =>
      if decide (c = newline) then [] :: pieces s'
      else match pieces s' with
           | l :: ls => (c :: l) :: ls
           | [] => [[c]]
           end
  end.

(** The non-blank lines of a text, in the order of the text. *)
Definition nonblank_lines (s : list ascii) : list (list ascii) :=
  filter (λ l, l ≠ []) (pieces s).

(** One record per string, each ended by a line break. *)
Definition records (v : list (list ascii)) : list ascii :=
  v ≫= (λ s, s ++ [newline]).

(** The strings joined with a line break between neighbours. *)
Fixpoint join_lines (ls : list (list ascii)) : list ascii :=
  match ls with
  | [] => []
  | [l] => l
  | l :: ls' => l ++ newline :: join_lines ls'
  end.

(** A string as a sequence of [char]. *)
Definition txt (s : string) : list ascii := list_ascii_of_string s.

(** An example working directory: an input of three lines with a blank
    line among them, everything readable and writable. *)
Definition example_fs : filesystem :=
  FileSystem
    {[ "Input.txt"%string :=
         txt "apple" ++ [newline] ++ [newline] ++ txt "banana" ++ [newline]
         ++ txt " cherry " ]}
    (λ _, true) (λ _, true).

(** A working directory without [Input.txt]. *)
Definition empty_fs : filesystem := FileSystem ∅ (λ _, true) (λ _, true).

(** A working directory with an input and nothing that may be written. *)
Definition readonly_fs : filesystem :=
  FileSystem {[ "Input.txt"%string := txt "b" ++ newline :: txt "a" ]}
    (λ _, true) (λ _, false).

(** A working directory whose input has one line among blank lines. *)
Definition one_line_fs : filesystem :=
  FileSystem {[ "Input.txt"%string := newline :: txt "only" ++ [newline; newline] ]}
    (λ _, true) (λ _, true).

(** The engine state after the draws of the steps [i], ..., [i + n - 1]. *)
Fixpoint advance {G : Type} (draw : nat → nat → G → nat * G) (i n : nat) (g : G)
  : G :=
  match n with
  | 0 => g
  | S n' => advance draw (S i) n' (draw 0 i g).2
  end.

(** The vector after the first [k] iterations of the loop of [Randomize],
    started with the engine in the state [g]. *)
Definition after_steps {A G : Type} (draw : nat → nat → G → nat * G) (k : nat)
    (g : G) (v : list A) : list A :=
  exchanges 0 (draws draw 0 k g) v.

(** The number of line breaks of a text. *)
Definition line_breaks (s : list ascii) : nat :=
  length (filter (λ c, c = newline) s).

(** * Properties *)

(** ** Exchanging two slots *)

Section SwapFacts.
Context {A : Type}.
Implicit Types (v p s : list A) (i j k : nat).

Lemma transpose_involutive i j k : transpose i j (transpose i j k) = k.
Proof. unfold transpose. repeat case_decide; lia. Qed.

Lemma transpose_inj i j : Inj (=) (=) (transpose i j).
Proof.
  intros k1 k2 H. rewrite <-(transpose_involutive i j k1), H.
  apply transpose_involutive.
Qed.

Lemma swap_lookup v i j k :
  i < length v → j < length v → swap v i j !! k = v !! transpose i j k.
Proof.
  intros [x Hx]%lookup_lt_is_Some [y Hy]%lookup_lt_is_Some.
  unfold swap, transpose. rewrite Hx, Hy.
  assert (i < length v) by by eapply lookup_lt_Some.
  assert (j < length v) by by eapply lookup_lt_Some.
  rewrite list_lookup_insert by (rewrite length_insert; lia).
  rewrite list_lookup_insert by lia.
  rewrite !length_insert.
  repeat case_decide; destruct_and?; simplify_eq; try lia; try done.
  all: try (destruct_or?; lia).
Qed.

Lemma swap_Permutation v i j : swap v i j ≡ₚ v.
Proof.
  destruct (decide (i < length v)) as [Hi|Hi];
    [destruct (decide (j < length v)) as [Hj|Hj]|].
  - apply Permutation_inj. split; [apply swap_length|].
    exists (transpose i j). split; [apply transpose_inj|].
    intros k. by apply swap_lookup.
  - unfold swap. rewrite (lookup_ge_None_2 v j) by lia. by destruct (v !! i).
  - unfold swap. by rewrite (lookup_ge_None_2 v i) by lia.
Qed.

Lemma swap_same v i : swap v i i = v.
Proof.
  unfold swap. destruct (v !! i) as [x|] eqn:Hx; [|done].
  by rewrite list_insert_insert_eq, list_insert_id.
Qed.

Lemma swap_swap v i j :
  i < length v → j < length v → swap (swap v i j) i j = v.
Proof.
  intros Hi Hj. apply list_eq. intros k.
  rewrite !swap_lookup by (rewrite ?swap_length; lia).
  by rewrite transpose_involutive.
Qed.

Lemma swap_app_l p s i j :
  i < length p → j < length p → swap (p ++ s) i j = swap p i j ++ s.
Proof.
  intros Hi Hj. unfold swap. rewrite !lookup_app_l by lia.
  destruct (lookup_lt_is_Some_2 p i Hi) as [x ->].
  destruct (lookup_lt_is_Some_2 p j Hj) as [y ->].
  rewrite insert_app_l by lia.
  by rewrite insert_app_l by (rewrite length_insert; lia).
Qed.

Lemma swap_fmap {B : Type} (f : A → B) v i j :
  swap (f <$> v) i j = f <$> swap v i j.
Proof.
  unfold swap. rewrite !list_lookup_fmap.
  destruct (v !! i), (v !! j); simpl; try done.
  by rewrite !list_fmap_insert.
Qed.

Lemma exchange_swap v i j :
  exchange v i j =
    if decide (i < length v ∧ j < length v) then Some (swap v i j) else None.
Proof.
  unfold exchange. case_decide as H.
  - destruct H as [Hi Hj].
    destruct (lookup_lt_is_Some_2 v i Hi) as [x Hx].
    destruct (lookup_lt_is_Some_2 v j Hj) as [y Hy].
    rewrite Hx, Hy. simpl. f_equal. apply list_eq. intros k.
    rewrite swap_lookup by done. rewrite list_lookup_imap. unfold transpose.
    destruct (v !! k) as [z|] eqn:Hz; simpl.
    + repeat case_decide; simplify_eq; congruence.
    + apply lookup_ge_None in Hz. repeat case_decide; simplify_eq; try lia.
      symmetry. by apply lookup_ge_None.
  - destruct (v !! i) as [x|] eqn:Hx; simpl; [|done].
    destruct (v !! j) as [y|] eqn:Hy; simpl; [|done].
    apply lookup_lt_Some in Hx, Hy. lia.
Qed.

End SwapFacts.

(** ** The loop of the shuffle, for any generator *)

Section ShuffleFacts.
Context {A G : Type}.
Variable draw : nat → nat → G → nat * G.
Implicit Types (v : list A) (g : G) (i j k n : nat).

Lemma Randomize_loop_step i g v :
  Randomize_loop draw i g v =
    if decide (i < length v) then
      if decide ((draw 0 i g).1 < length v)
      then Randomize_loop draw (S i) (draw 0 i g).2 (swap v i (draw 0 i g).1)
      else None
    else Some (v, g).
Proof.
  rewrite Randomize_loop_equation_1.
  destruct (lt_dec i (length v)); simpl; [|by rewrite decide_False].
  rewrite decide_True by done.
  destruct (draw 0 i g) as [j g']; simpl.
  destruct (lt_dec j (length v)); simpl;
    [by rewrite decide_True|by rewrite decide_False].
Qed.

Lemma foldl_spec_step_None (l : list nat) :
  foldl (spec_step (A:=A) draw) None l = None.
Proof. by induction l. Qed.

(** The loop entered at [i] does the steps [i], [i + 1], ..., [n - 1]. *)
Lemma Randomize_loop_fold i g v :
  Randomize_loop draw i g v =
    foldl (spec_step draw) (Some (v, g)) (seq i (length v - i)).
Proof.
  remember (length v - i) as k eqn:Hk. revert i g v Hk.
  induction k as [|k IH]; intros i g v Hk; rewrite Randomize_loop_step.
  - by rewrite decide_False by lia.
  - rewrite decide_True by lia. simpl.
    destruct (draw 0 i g) as [j g'] eqn:Hd. simpl.
    rewrite exchange_swap. case_decide as Hj.
    + rewrite decide_True by lia. simpl. apply IH. rewrite swap_length. lia.
    + rewrite decide_False by lia. simpl. by rewrite foldl_spec_step_None.
Qed.

(** Whatever the draws, a shuffle that stays inside the vector leaves a
    rearrangement of it. *)
Lemma Randomize_loop_Permutation i g v v' g' :
  Randomize_loop draw i g v = Some (v', g') → v' ≡ₚ v.
Proof.
  remember (length v - i) as k eqn:Hk. revert i g v Hk.
  induction k as [|k IH]; intros i g v Hk; rewrite Randomize_loop_step.
  - rewrite decide_False by lia. by intros [= <- <-].
  - rewrite decide_True by lia. case_decide; [|done].
    intros Hr. apply IH in Hr; [|rewrite swap_length; lia].
    by rewrite Hr, swap_Permutation.
Qed.

(** With a generator that keeps to the requested range the shuffle never
    leaves the vector. *)
Lemma Randomize_loop_defined i g v :
  in_range draw → is_Some (Randomize_loop draw i g v).
Proof.
  intros Hdraw.
  remember (length v - i) as k eqn:Hk. revert i g v Hk.
  induction k as [|k IH]; intros i g v Hk; rewrite Randomize_loop_step.
  - by rewrite decide_False by lia.
  - rewrite decide_True by lia.
    pose proof (Hdraw 0 i g). rewrite decide_True by lia.
    apply IH. rewrite swap_length. lia.
Qed.

(** When every draw at step [i] gives [i] itself, nothing moves. *)
Lemma Randomize_loop_identity i g v :
  (∀ k g, (draw 0 k g).1 = k) → ∃ g', Randomize_loop draw i g v = Some (v, g').
Proof.
  intros Hdraw.
  remember (length v - i) as k eqn:Hk. revert i g v Hk.
  induction k as [|k IH]; intros i g v Hk; rewrite Randomize_loop_step.
  - rewrite decide_False by lia. eauto.
  - rewrite decide_True by lia. rewrite Hdraw, decide_True by lia.
    rewrite swap_same. apply IH. lia.
Qed.

End ShuffleFacts.

(** The loop asks for one draw per step, from [[0, i]] at step [i], in
    increasing order of [i]; recording the requests changes nothing else. *)
Lemma Randomize_loop_logged {A G : Type} (draw : nat → nat → G → nat * G)
    i g log (v : list A) :
  Randomize_loop (logged draw) i (g, log) v =
    prod_map id (λ g', (g', log ++ ((λ k, (0, k)) <$> seq i (length v - i))))
      <$> Randomize_loop draw i g v.
Proof.
  remember (length v - i) as k eqn:Hk. revert i g log v Hk.
  induction k as [|k IH]; intros i g log v Hk;
    rewrite (Randomize_loop_step draw), (Randomize_loop_step (logged draw)).
  - destruct (decide (i < length v)); [lia|]. simpl. by rewrite app_nil_r.
  - destruct (decide (i < length v)); [|lia]. unfold logged at 1 2. simpl.
    case_decide; [|done].
    rewrite IH by (rewrite swap_length; lia).
    by rewrite <-(assoc_L (++)).
Qed.

(** The loop never looks at the elements: shuffling the images of the
    elements under [f] gives the images of the shuffled elements. *)
Lemma Randomize_loop_fmap {A B G : Type} (draw : nat → nat → G → nat * G)
    (f : A → B) i g (v : list A) :
  Randomize_loop draw i g (f <$> v) =
    prod_map (fmap (M:=list) f) (@id G) <$> Randomize_loop draw i g v.
Proof.
  remember (length v - i) as k eqn:Hk. revert i g v Hk.
  induction k as [|k IH]; intros i g v Hk;
    rewrite (Randomize_loop_step _ _ _ v), (Randomize_loop_step _ _ _ (f <$> v));
    rewrite length_fmap.
  - by destruct (decide (i < length v)); [lia|].
  - destruct (decide (i < length v)); [|lia]. case_decide; [|done].
    rewrite swap_fmap. apply IH. rewrite swap_length. lia.
Qed.

(** ** Forced draws *)

Section ScriptFacts.
Context {A : Type}.
Implicit Types (v p s : list A) (js : list nat) (i j k n : nat).

Lemma exchanges_snoc i js j v :
  exchanges i (js ++ [j]) v = swap (exchanges i js v) (i + length js) j.
Proof.
  revert i v. induction js as [|j' js IH]; intros i v; simpl.
  - by rewrite Nat.add_0_r.
  - rewrite IH. f_equal. lia.
Qed.

Lemma exchanges_length i js v : length (exchanges i js v) = length v.
Proof.
  revert i v. induction js as [|j js IH]; intros i v; simpl; [done|].
  by rewrite IH, swap_length.
Qed.

Lemma exchanges_Permutation i js v : exchanges i js v ≡ₚ v.
Proof.
  revert i v. induction js as [|j js IH]; intros i v; simpl; [done|].
  by rewrite IH, swap_Permutation.
Qed.

Lemma script_nil js : script 0 js ↔ js = [].
Proof.
  split; [intros [H%nil_length_inv _]; done|intros ->].
  split; [done|]. by intros k j.
Qed.

Lemma script_snoc n js j : script (S n) (js ++ [j]) ↔ script n js ∧ j ≤ n.
Proof.
  unfold script. rewrite length_app. simpl. split.
  - intros [Hlen Hjs]. assert (length js = n) as Hn by lia.
    split; [split; [done|]|].
    + intros k j' Hk. apply Hjs. rewrite lookup_app_l; [done|].
      by eapply lookup_lt_Some.
    + rewrite <-Hn. apply Hjs. by rewrite list_lookup_middle.
  - intros [[Hlen Hjs] Hj]. split; [lia|].
    intros k j' [[Hk ?] | [? [= <-]]]%lookup_snoc_Some; [by apply Hjs|lia].
Qed.

Lemma script_S_inv n js :
  script (S n) js → ∃ js' j, js = js' ++ [j] ∧ script n js' ∧ j ≤ n.
Proof.
  destruct js as [|j0 js0] using rev_ind; [intros [[=] _]|].
  intros H. pose proof H as [??]%script_snoc. eauto.
Qed.

Lemma elem_of_draw_seqs n js : js ∈ draw_seqs n ↔ script n js.
Proof.
  revert js. induction n as [|n IH]; intros js; cbn [draw_seqs].
  - rewrite script_nil. apply list_elem_of_singleton.
  - rewrite list_elem_of_bind. split.
    + intros (js' & (j & Hjs & Hj)%list_elem_of_bind & Hjs').
      apply list_elem_of_singleton in Hjs as ->.
      apply elem_of_seq in Hj. apply script_snoc. rewrite <-IH. split; [done|lia].
    + intros (js' & j & -> & Hjs' & Hj)%script_S_inv.
      exists js'. rewrite IH. split; [|done].
      apply list_elem_of_bind. exists j. split; [by apply list_elem_of_singleton|].
      apply elem_of_seq. lia.
Qed.

Lemma length_bind_const {B C : Type} (f : B → list C) (l : list B) c :
  (∀ x, length (f x) = c) → length (l ≫= f) = length l * c.
Proof.
  intros Hf. induction l as [|x l IH]; csimpl; [done|].
  by rewrite length_app, Hf, IH.
Qed.

Lemma length_draw_seqs n : length (draw_seqs n) = fact n.
Proof.
  induction n as [|n IH]; [done|].
  cbn [draw_seqs fact].
  rewrite (length_bind_const _ _ (S n)).
  - rewrite IH. lia.
  - intros js. rewrite (length_bind_const _ _ 1); [|done].
    rewrite length_seq. lia.
Qed.

Lemma NoDup_draw_seqs n : NoDup (draw_seqs n).
Proof.
  induction n as [|n IH]; cbn [draw_seqs]; [apply NoDup_singleton|].
  apply NoDup_bind; [| |done].
  - intros js1 js2 js _ _ (j1 & ->%list_elem_of_singleton & _)%list_elem_of_bind
      (j2 & H%list_elem_of_singleton & _)%list_elem_of_bind.
    by apply app_inj_tail in H as [-> _].
  - intros js _. apply NoDup_bind; [| |apply NoDup_seq].
    + intros j1 j2 js' _ _ ->%list_elem_of_singleton H%list_elem_of_singleton.
      by apply app_inj_tail in H as [_ ->].
    + intros. apply NoDup_singleton.
Qed.

(** With forced draws that keep to their ranges, the loop does the
    exchanges and uses up the draws. *)
Lemma Randomize_loop_scripted i js rest v :
  i + length js = length v →
  (∀ k j, js !! k = Some j → j ≤ i + k) →
  Randomize_loop scripted i (js ++ rest) v = Some (exchanges i js v, rest).
Proof.
  revert i v. induction js as [|j js IH]; intros i v Hlen Hjs;
    rewrite Randomize_loop_step; simpl in *.
  - by rewrite decide_False by lia.
  - rewrite decide_True by lia.
    pose proof (Hjs 0 j eq_refl). rewrite decide_True by lia.
    apply IH; [rewrite swap_length; lia|].
    intros k j' Hk. pose proof (Hjs (S k) j' Hk). lia.
Qed.

Lemma outcome_script js v :
  script (length v) js → outcome js v = Some (exchanges 0 js v).
Proof.
  intros [Hlen Hjs]. unfold outcome.
  rewrite <-(app_nil_r js) at 1.
  rewrite Randomize_loop_scripted; [done | lia | done].
Qed.

Lemma exchanges_app n js p s :
  script n js → n ≤ length p →
  exchanges 0 js (p ++ s) = exchanges 0 js p ++ s.
Proof.
  revert n. induction js as [|j js IH] using rev_ind; intros n Hjs Hn; [done|].
  destruct n as [|n]; [by apply script_nil, app_nil in Hjs as [_ [=]]|].
  apply script_snoc in Hjs as [Hjs Hj]. pose proof Hjs as [Hlen _].
  rewrite !exchanges_snoc, (IH n) by (done || lia).
  apply swap_app_l; rewrite exchanges_length; simpl; lia.
Qed.

Lemma exchanges_snoc_snoc js j p x :
  script (length p) js → j ≤ length p →
  exchanges 0 (js ++ [j]) (p ++ [x]) = swap (exchanges 0 js p ++ [x]) (length p) j.
Proof.
  intros Hjs Hj. rewrite exchanges_snoc. simpl.
  rewrite (exchanges_app (length p)) by done.
  by destruct Hjs as [-> _].
Qed.

(** Every rearrangement of the vector is reached by some draws. *)
Lemma exchanges_surj v v' :
  v' ≡ₚ v → ∃ js, script (length v) js ∧ exchanges 0 js v = v'.
Proof.
  revert v'. induction v as [|x p IH] using rev_ind; intros v' Hv'.
  - apply Permutation_nil_r in Hv' as ->. exists []. by rewrite script_nil.
  - assert (x ∈ v') as [j Hj]%list_elem_of_lookup
      by (rewrite Hv'; apply elem_of_app; right; by apply list_elem_of_singleton).
    pose proof (Permutation_length Hv') as Hlen.
    rewrite length_app in Hlen. simpl in Hlen.
    pose proof (lookup_lt_Some _ _ _ Hj) as Hjlt.
    set (n := length p) in *. set (w := swap v' n j).
    assert (length w = S n) as Hw by (unfold w; rewrite swap_length; lia).
    assert (w !! n = Some x) as Hwn.
    { unfold w. rewrite swap_lookup by lia. unfold transpose.
      by rewrite decide_True by done. }
    assert (w = take n w ++ [x]) as Hwx.
    { rewrite <-(take_S_r _ _ _ Hwn). by rewrite take_ge by lia. }
    destruct (IH (take n w)) as (js & Hjs & Hex).
    { apply (Permutation_app_inv_r [x]). rewrite <-Hwx, <-Hv'.
      apply swap_Permutation. }
    exists (js ++ [j]). rewrite length_app. simpl.
    replace (length p + 1) with (S n) by (unfold n; lia).
    split; [apply script_snoc; split; [done|lia]|].
    rewrite exchanges_snoc_snoc by (done || lia).
    rewrite Hex, <-Hwx. apply swap_swap; lia.
Qed.

(** Distinct draws lead to distinct rearrangements of a vector without
    repeated elements. *)
Lemma exchanges_inj v js1 js2 :
  NoDup v → script (length v) js1 → script (length v) js2 →
  exchanges 0 js1 v = exchanges 0 js2 v → js1 = js2.
Proof.
  revert js1 js2. induction v as [|x p IH] using rev_ind;
    intros js1 js2 Hnd Hjs1 Hjs2 Heq.
  - apply script_nil in Hjs1, Hjs2. by subst.
  - rewrite length_app in Hjs1, Hjs2. simpl in *.
    replace (length p + 1) with (S (length p)) in * by lia.
    apply script_S_inv in Hjs1 as (js1' & j1 & -> & Hjs1 & Hj1).
    apply script_S_inv in Hjs2 as (js2' & j2 & -> & Hjs2 & Hj2).
    rewrite !exchanges_snoc_snoc in Heq by done.
    set (q1 := exchanges 0 js1' p) in *. set (q2 := exchanges 0 js2' p) in *.
    assert (length q1 = length p) as Hq1 by apply exchanges_length.
    assert (length q2 = length p) as Hq2 by apply exchanges_length.
    assert (∀ q j, length q = length p → j ≤ length p →
              swap (q ++ [x]) (length p) j !! j = Some x) as Hx.
    { intros q j Hq Hj. rewrite swap_lookup by (rewrite length_app; simpl; lia).
      replace (transpose (length p) j j) with (length p)
        by (unfold transpose; repeat case_decide; lia).
      rewrite <-Hq. by rewrite list_lookup_middle. }
    assert (j1 = j2) as <-.
    { eapply (NoDup_lookup (swap (q1 ++ [x]) (length p) j1)).
      - rewrite swap_Permutation. unfold q1.
        by rewrite exchanges_Permutation.
      - by apply Hx.
      - rewrite Heq. by apply Hx. }
    f_equal. apply (IH js1' js2'); [by apply NoDup_app in Hnd as [? _]|done..|].
    apply (f_equal (λ w, swap w (length p) j1)) in Heq.
    rewrite !swap_swap in Heq by (rewrite length_app; simpl; lia).
    by apply app_inv_tail in Heq.
Qed.

Lemma length_filter_unique {B : Type} (P : B → Prop) `{∀ x, Decision (P x)}
    (l : list B) (x : B) :
  NoDup l → x ∈ l → P x → (∀ y, y ∈ l → P y → y = x) →
  length (filter P l) = 1.
Proof.
  intros Hnd Hx HPx Huniq.
  assert (filter P l ≡ₚ [x]) as ->; [|done].
  apply NoDup_Permutation; [by apply NoDup_filter|apply NoDup_singleton|].
  intros y. rewrite list_elem_of_filter, list_elem_of_singleton.
  split; [intros [??]; auto|intros ->; auto].
Qed.

End ScriptFacts.

Lemma exchanges_seq {A : Type} i n (v : list A) : exchanges i (seq i n) v = v.
Proof.
  revert i. induction n as [|n IH]; intros i; simpl; [done|].
  by rewrite swap_same, IH.
Qed.

Lemma script_seq n : script n (seq 0 n).
Proof.
  split; [apply length_seq|].
  intros k j [-> _]%lookup_seq. done.
Qed.

Lemma modulo_draw_in_range : in_range modulo_draw.
Proof.
  intros a b g Hab. unfold modulo_draw. simpl fst.
  pose proof (Z.mod_pos_bound (minstd_rand0 g) (Z.of_nat (S (b - a)))).
  lia.
Qed.

(** ** The shuffle: what it does *)

(** C1.  [Randomize] does exactly the steps of its description: for [i]
    from [0] to [n - 1], in increasing order, one draw [j] asked from the
    range [[0, i]] and the exchange of the elements at positions [i] and
    [j].  With the draw at [i = 1] forced to [0], [["x"; "y"]] becomes
    [["y"; "x"]]; and when every draw at step [i] is [i], the vector is left
    as it was. *)
Theorem Randomize_steps :
  (∀ (A G : Type) (seed : Z → G) (draw : nat → nat → G → nat * G)
     (now : Z) (g : G) (v : list A),
     Randomize_loop draw 0 g v = spec_shuffle draw g v
     ∧ Randomize seed draw now v
       = fst <$> spec_shuffle draw (seed (now mod 2 ^ 32)%Z) v
     ∧ Randomize_loop (logged draw) 0 (g, []) v
       = prod_map id (λ g', (g', (λ i, (0, i)) <$> seq 0 (length v)))
           <$> Randomize_loop draw 0 g v)
  ∧ outcome [0; 0] ["x"; "y"]%string = Some ["y"; "x"]%string
  ∧ outcome [0; 1; 2; 3] ["apple"; "banana"; "cherry"; "date"]%string
    = Some ["apple"; "banana"; "cherry"; "date"]%string
  ∧ (∀ (A : Type) (v : list A), outcome (seq 0 (length v)) v = Some v)
  ∧ (∀ (A G : Type) (draw : nat → nat → G → nat * G) (g : G) (v : list A),
       (∀ i g, (draw 0 i g).1 = i) →
       ∃ g', Randomize_loop draw 0 g v = Some (v, g')).
Proof.
  split_and!.
  - intros A G seed draw now g v. split_and!.
    + rewrite Randomize_loop_fold. unfold spec_shuffle. by rewrite Nat.sub_0_r.
    + unfold Randomize, GetEpochTime. rewrite Randomize_loop_fold.
      unfold spec_shuffle. by rewrite Nat.sub_0_r.
    + rewrite Randomize_loop_logged. by rewrite Nat.sub_0_r.
  - reflexivity.
  - reflexivity.
  - intros A v. rewrite outcome_script by apply script_seq.
    by rewrite exchanges_seq.
  - intros A G draw g v Hdraw. by apply Randomize_loop_identity.
Qed.

Lemma Randomize_steps_witness :
  ∃ g', Randomize_loop draw_upper 0 () [txt "x"; txt "y"] = Some ([txt "x"; txt "y"], g').
Proof.
  apply (proj2 (proj2 (proj2 (proj2 Randomize_steps)))). reflexivity.
Defined.

(** ** The shuffle: every ordering is as likely as any other *)

Lemma length_draws {G : Type} (draw : nat → nat → G → nat * G) i n g :
  length (draws draw i n g) = n.
Proof. revert i g. induction n as [|n IH]; intros i g; simpl; auto. Qed.

Lemma lookup_draws_in_range {G : Type} (draw : nat → nat → G → nat * G) i n g k j :
  in_range draw → draws draw i n g !! k = Some j → j ≤ i + k.
Proof.
  intros Hdraw. revert i g k. induction n as [|n IH]; intros i g k; [done|].
  destruct k as [|k]; simpl.
  - intros [= <-]. pose proof (Hdraw 0 i g). lia.
  - intros Hk%IH. lia.
Qed.

(** A run of the loop depends on the generator through the values it
    draws only. *)
Lemma Randomize_loop_draws {A G : Type} (draw : nat → nat → G → nat * G)
    i g (v : list A) :
  in_range draw →
  fst <$> Randomize_loop draw i g v
  = Some (exchanges i (draws draw i (length v - i) g) v).
Proof.
  intros Hdraw.
  remember (length v - i) as k eqn:Hk. revert i g v Hk.
  induction k as [|k IH]; intros i g v Hk; rewrite Randomize_loop_step.
  - by rewrite decide_False by lia.
  - rewrite decide_True by lia. pose proof (Hdraw 0 i g).
    rewrite decide_True by lia. simpl.
    rewrite IH; [done|]. rewrite swap_length. lia.
Qed.

Lemma outcome_fmap {A B : Type} (f : A → B) js (v : list A) :
  outcome js (f <$> v) = fmap (M:=list) f <$> outcome js v.
Proof.
  unfold outcome. rewrite Randomize_loop_fmap.
  by destruct (Randomize_loop scripted 0 js v) as [[??]|].
Qed.

Lemma fmap_nth_seq {A : Type} (d : A) (v : list A) :
  (λ k, nth k v d) <$> seq 0 (length v) = v.
Proof.
  apply list_eq. intros k. rewrite list_lookup_fmap.
  destruct (v !! k) as [x|] eqn:Hk.
  - rewrite lookup_seq_lt by (by eapply lookup_lt_Some). simpl.
    f_equal. by apply nth_lookup_Some.
  - apply lookup_ge_None in Hk. by rewrite lookup_seq_ge.
Qed.

(** For a vector without repeated elements, every ordering of it comes
    from exactly one sequence of draws. *)
Lemma outcome_bijection {A : Type} (v v' : list A) :
  NoDup v → v' ≡ₚ v →
  exists! js, js ∈ draw_seqs (length v) ∧ outcome js v = Some v'.
Proof.
  intros Hnd (js & Hjs & Hex)%exchanges_surj. exists js. split.
  - rewrite elem_of_draw_seqs. split; [done|]. by rewrite outcome_script, Hex.
  - intros js' [Hjs'%elem_of_draw_seqs Hout].
    rewrite outcome_script in Hout by done.
    apply (exchanges_inj v); [done..|]. congruence.
Qed.

Lemma probability_ordering {A : Type} `{EqDecision A} (v v' : list A) :
  NoDup v → v' ≡ₚ v → probability v v' = 1 # Pos.of_nat (fact (length v)).
Proof.
  intros Hnd Hv'. unfold probability. rewrite length_draw_seqs.
  destruct (outcome_bijection v v' Hnd Hv') as (js & [Hjs Hout] & Huniq).
  rewrite (length_filter_unique _ _ js); [done|apply NoDup_draw_seqs|done..|].
  intros js' ??. symmetry. by apply Huniq.
Qed.

(** C2.  For a vector of length [n], the sequences of draws
    [j_0, ..., j_(n-1)] with [j_i] in [[0, i]] and the orderings of the [n]
    positions correspond one to one under the shuffle: every such sequence
    leads to an ordering, every ordering comes from exactly one of them, and
    there are [n!] of them.  So with draws that are uniform on their ranges
    every ordering of the positions has probability exactly [1 / n!]; the
    vector is rearranged as its positions are, and when its elements are
    distinct the same holds of its orderings themselves.  A run with any
    generator that keeps to the ranges is the run with its draws forced. *)
Theorem Randomize_unbiased {A : Type} `{EqDecision A} (v : list A) :
  (∀ js, js ∈ draw_seqs (length v) →
     ∃ π, outcome js (seq 0 (length v)) = Some π ∧ π ≡ₚ seq 0 (length v))
  ∧ (∀ π, π ≡ₚ seq 0 (length v) →
       exists! js, js ∈ draw_seqs (length v) ∧ outcome js (seq 0 (length v)) = Some π)
  ∧ NoDup (draw_seqs (length v))
  ∧ length (draw_seqs (length v)) = fact (length v)
  ∧ (∀ π, π ≡ₚ seq 0 (length v) →
       probability (seq 0 (length v)) π = 1 # Pos.of_nat (fact (length v)))
  ∧ (∀ d js,
       outcome js v
       = fmap (M:=list) (λ k, nth k v d) <$> outcome js (seq 0 (length v)))
  ∧ (NoDup v → ∀ v', v' ≡ₚ v →
       (exists! js, js ∈ draw_seqs (length v) ∧ outcome js v = Some v')
       ∧ probability v v' = 1 # Pos.of_nat (fact (length v)))
  ∧ (∀ (G : Type) (draw : nat → nat → G → nat * G) (g : G),
       in_range draw →
       draws draw 0 (length v) g ∈ draw_seqs (length v)
       ∧ fst <$> Randomize_loop draw 0 g v = outcome (draws draw 0 (length v) g) v).
Proof.
  set (n := length v).
  assert (length (seq 0 n) = n) as Hn by apply length_seq.
  split_and!.
  - intros js Hjs%elem_of_draw_seqs. exists (exchanges 0 js (seq 0 n)).
    split; [|apply exchanges_Permutation].
    apply outcome_script. by rewrite Hn.
  - intros π Hπ.
    pose proof (outcome_bijection (seq 0 n) π (NoDup_seq 0 n) Hπ) as Hb.
    by rewrite Hn in Hb.
  - apply NoDup_draw_seqs.
  - apply length_draw_seqs.
  - intros π Hπ.
    pose proof (probability_ordering (seq 0 n) π (NoDup_seq 0 n) Hπ) as Hp.
    by rewrite Hn in Hp.
  - intros d js. rewrite <-outcome_fmap. unfold n. by rewrite fmap_nth_seq.
  - intros Hnd v' Hv'. split; [by apply outcome_bijection|by apply probability_ordering].
  - intros G draw g Hdraw.
    assert (script n (draws draw 0 n g)) as Hscript.
    { split; [apply length_draws|]. intros k j Hk.
      by apply (lookup_draws_in_range draw 0 n g k j Hdraw). }
    split; [by apply elem_of_draw_seqs|].
    rewrite outcome_script by done.
    rewrite Randomize_loop_draws by done. by rewrite Nat.sub_0_r.
Qed.

Lemma Randomize_unbiased_witness :
  probability [txt "a"; txt "b"; txt "c"] [txt "c"; txt "a"; txt "b"] = 1 # 6.
Proof.
  assert (NoDup [txt "a"; txt "b"; txt "c"]) as Hnd.
  { by apply (bool_decide_unpack _). }
  apply (proj1 (proj2 (proj2 (proj2 (proj2 (proj2 (proj2
           (Randomize_unbiased [txt "a"; txt "b"; txt "c"]))))))) Hnd).
  etrans; [apply Permutation_swap|]. apply Permutation_skip, Permutation_swap.
Defined.

(** ** The shuffle of an empty or one-element vector *)

(** C6, as the code has it.  On an empty vector the shuffle asks for no
    draw and leaves the generator and the vector as they are.  On a vector
    of one element it asks for exactly one draw, from the range [[0, 0]];
    that draw can only be [0], so the vector is unchanged, and the
    generator is left in the state that follows the draw. *)
Theorem Randomize_trivial {A G : Type} (draw : nat → nat → G → nat * G) :
  in_range draw → ∀ (g : G) (v : list A),
  (length v = 0 →
     Randomize_loop (logged draw) 0 (g, []) v = Some (v, (g, [])))
  ∧ (length v = 1 →
     Randomize_loop (logged draw) 0 (g, []) v
     = Some (v, ((draw 0 0 g).2, [(0, 0)])))
  ∧ (length v ≤ 1 → ∀ (seed : Z → G) now, Randomize seed draw now v = Some v).
Proof.
  intros Hdraw g v. split_and!.
  - intros ->%nil_length_inv. reflexivity.
  - destruct v as [|x [|??]]; intros [=].
    pose proof (Hdraw 0 0 g) as H0.
    assert ((draw 0 0 g).1 = 0) as Hj by lia.
    rewrite Randomize_loop_step. simpl. unfold logged. simpl. rewrite Hj. simpl.
    rewrite Randomize_loop_step. simpl. by rewrite swap_same.
  - intros Hlen seed now. unfold Randomize.
    rewrite Randomize_loop_draws by done.
    destruct v as [|x [|??]]; simpl in *; [done| |lia].
    pose proof (Hdraw 0 0 (seed (GetEpochTime now))).
    assert ((draw 0 0 (seed (GetEpochTime now))).1 = 0) as -> by lia.
    by rewrite swap_same.
Qed.

Lemma Randomize_trivial_witness :
  Randomize_loop (logged modulo_draw) 0 (1%Z, []) [txt "a"]
  = Some ([txt "a"], ((modulo_draw 0 0 1%Z).2, [(0, 0)])).
Proof.
  apply (Randomize_trivial modulo_draw modulo_draw_in_range 1%Z [txt "a"]).
  reflexivity.
Defined.

(** C6 as stated fails at a one-element vector: the run asks the generator
    for a draw, and the generator is not left in the state it started in. *)
Lemma Randomize_single_draws :
  Randomize_loop (logged modulo_draw) 0 (1%Z, []) [txt "a"]
  = Some ([txt "a"], (16807%Z, [(0, 0)]))
  ∧ ¬ (∀ (G : Type) (draw : nat → nat → G → nat * G), in_range draw →
       ∀ (g : G) (v : list (list ascii)), length v ≤ 1 →
       Randomize_loop (logged draw) 0 (g, []) v = Some (v, (g, []))).
Proof.
  split; [reflexivity|].
  intros H.
  specialize (H Z modulo_draw modulo_draw_in_range 1%Z [txt "a"]).
  discriminate H. simpl. lia.
Qed.

(** ** Reading and writing lines *)

Lemma ReadStrings_loop_step infile v :
  ReadStrings_loop infile v =
    match getline infile with
    | None => v
    | Some (strLine, rest) =>
        if decide (strLine = []) then ReadStrings_loop rest v
        else ReadStrings_loop rest (v ++ [strLine])
    end.
Proof.
  funelim (ReadStrings_loop infile v);
    match goal with e : getline _ = _ |- _ => rewrite e end;
    [done | by rewrite decide_True | by rewrite decide_False].
Qed.

(** The loop only ever appends to the vector it is given. *)
Lemma ReadStrings_loop_app infile v :
  ReadStrings_loop infile v = v ++ ReadStrings_loop infile [].
Proof.
  remember (length infile) as n eqn:Hn. revert infile v Hn.
  induction n as [n IH] using lt_wf_ind. intros infile v ->.
  rewrite (ReadStrings_loop_step infile v), (ReadStrings_loop_step infile []).
  destruct (getline infile) as [[strLine rest]|] eqn:Hg; [|by rewrite app_nil_r].
  apply getline_shorter in Hg.
  case_decide; [by eapply IH|].
  rewrite (IH _ Hg rest (v ++ [strLine]) eq_refl).
  rewrite (IH _ Hg rest ([] ++ [strLine]) eq_refl).
  by rewrite <-(assoc_L (++)).
Qed.

Lemma getline_extract_no_newline s :
  newline ∉ s → getline_extract s = (s, []).
Proof.
  induction s as [|c s IH]; [done|].
  intros [Hc Hs]%not_elem_of_cons. cbn [getline_extract].
  case_decide; [done|]. by rewrite IH.
Qed.

Lemma getline_extract_app l s :
  newline ∉ l → getline_extract (l ++ newline :: s) = (l, s).
Proof.
  induction l as [|c l IH]; cbn [app getline_extract].
  - intros _. by case_decide.
  - intros [Hc Hl]%not_elem_of_cons. case_decide; [done|].
    by rewrite IH.
Qed.

(** The pieces of a text are its first line followed, when a line break
    ends that line, by the pieces of the rest. *)
Lemma pieces_getline_extract s :
  pieces s =
    (getline_extract s).1 ::
    if decide (newline ∈ s) then pieces (getline_extract s).2 else [].
Proof.
  induction s as [|c s IH]; [done|]. cbn [pieces getline_extract].
  destruct (decide (c = newline)) as [->|Hc]; cbn [fst snd].
  - by rewrite decide_True by (by apply elem_of_cons; left).
  - rewrite IH. destruct (getline_extract s) as [l r]. cbn [fst snd].
    f_equal. destruct (decide (newline ∈ s)).
    + by rewrite decide_True by (by apply elem_of_cons; right).
    + by rewrite decide_False by (by intros [?|?]%elem_of_cons).
Qed.

Lemma pieces_app l s :
  newline ∉ l → pieces (l ++ newline :: s) = l :: pieces s.
Proof.
  intros Hl. rewrite pieces_getline_extract, getline_extract_app by done.
  by rewrite decide_True
    by (apply elem_of_app; right; apply elem_of_cons; by left).
Qed.

(** No piece holds a line break, and the pieces put back together with a
    line break between neighbours are the text. *)
Lemma pieces_no_newline s l : l ∈ pieces s → newline ∉ l.
Proof.
  revert l. induction s as [|c s IH]; intros l; cbn [pieces].
  - intros ->%list_elem_of_singleton. apply not_elem_of_nil.
  - case_decide.
    + intros [->|?]%elem_of_cons; [apply not_elem_of_nil|by apply IH].
    + destruct (pieces s) as [|l0 ls].
      * intros ->%list_elem_of_singleton.
        apply not_elem_of_cons. split; [congruence|apply not_elem_of_nil].
      * intros [->|?]%elem_of_cons.
        -- apply not_elem_of_cons. split; [congruence|].
           apply IH, elem_of_cons. by left.
        -- apply IH, elem_of_cons. by right.
Qed.

Lemma pieces_not_nil s : pieces s ≠ [].
Proof.
  destruct s as [|c s]; cbn [pieces]; [done|].
  case_decide; [done|]. by destruct (pieces s).
Qed.

Lemma join_lines_pieces s : join_lines (pieces s) = s.
Proof.
  induction s as [|c s IH]; [done|]. cbn [pieces].
  pose proof (pieces_not_nil s).
  case_decide; subst.
  - destruct (pieces s) eqn:?; [done|]. cbn [join_lines app] in *. by rewrite IH.
  - destruct (pieces s) as [|l [|l' ls]]; [done|..];
      cbn [join_lines app] in *; by rewrite IH.
Qed.

(** The reader's loop, started on an empty vector, gives the non-blank
    lines of the text. *)
Lemma ReadStrings_loop_nonblank_lines infile :
  ReadStrings_loop infile [] = nonblank_lines infile.
Proof.
  remember (length infile) as n eqn:Hn. revert infile Hn.
  induction n as [n IH] using lt_wf_ind. intros infile ->.
  rewrite ReadStrings_loop_step. unfold nonblank_lines.
  destruct infile as [|c s]; [done|].
  assert (getline (c :: s) = Some (getline_extract (c :: s))) as Hget by done.
  rewrite Hget, pieces_getline_extract.
  destruct (getline_extract (c :: s)) as [strLine rest] eqn:Hg.
  pose proof (getline_shorter _ _ _ Hget) as Hlt.
  cbn [fst snd] in *.
  assert (filter (λ l : list ascii, l ≠ [])
            (if decide (newline ∈ c :: s) then pieces rest else [])
          = ReadStrings_loop rest []) as Hrest.
  { case_decide as Hnl.
    - symmetry. by eapply IH.
    - rewrite getline_extract_no_newline in Hg by done.
      by injection Hg as <- <-. }
  rewrite filter_cons, Hrest.
  destruct (decide (strLine = [])) as [Hl|Hl].
  - by rewrite decide_False by (by intros ?).
  - rewrite decide_True by done. by rewrite (ReadStrings_loop_app rest).
Qed.

Lemma WriteStrings_loop_records outfile v :
  WriteStrings_loop outfile v = outfile ++ records v.
Proof.
  revert outfile. induction v as [|s v IH]; intros outfile; simpl.
  - by rewrite app_nil_r.
  - rewrite IH. unfold records. csimpl. by rewrite <-!(assoc_L (++)).
Qed.

Lemma pieces_records v :
  Forall (λ s, newline ∉ s) v → pieces (records v) = v ++ [[]].
Proof.
  induction 1 as [|s v Hs Hv IH]; [done|].
  unfold records in *. csimpl. rewrite <-(assoc_L (++)). simpl.
  by rewrite pieces_app, IH.
Qed.

Lemma nonblank_lines_records v :
  Forall (λ s, s ≠ [] ∧ newline ∉ s) v → nonblank_lines (records v) = v.
Proof.
  intros Hv. unfold nonblank_lines. rewrite pieces_records.
  - rewrite filter_app. rewrite filter_cons, decide_False by (by intros ?).
    rewrite filter_nil, app_nil_r.
    induction Hv as [|s v [Hs _] _ IH]; [done|].
    by rewrite filter_cons, decide_True, IH.
  - eapply Forall_impl; [done|]. by intros s [_ ?].
Qed.

Lemma nonblank_lines_Forall s :
  Forall (λ l, l ≠ [] ∧ newline ∉ l) (nonblank_lines s).
Proof.
  apply Forall_forall. intros l [Hl Hin]%list_elem_of_filter.
  split; [done|]. by eapply pieces_no_newline.
Qed.

Lemma ReadStrings_ifstream fs fname v :
  ReadStrings fs fname v =
    match ifstream fs fname with
    | Some infile => nonblank_lines infile
    | None => []
    end.
Proof.
  unfold ReadStrings. destruct (ifstream fs fname); [|done].
  apply ReadStrings_loop_nonblank_lines.
Qed.

Lemma WriteStrings_lookup fs fname v :
  writable fs fname = true →
  contents (WriteStrings fs fname v) !! fname = Some (records v).
Proof.
  intros Hw. unfold WriteStrings, ofstream. rewrite Hw. simpl.
  by rewrite lookup_insert_eq, WriteStrings_loop_records.
Qed.

Lemma WriteStrings_lookup_ne fs fname v f :
  f ≠ fname → contents (WriteStrings fs fname v) !! f = contents fs !! f.
Proof.
  intros Hf. unfold WriteStrings, ofstream.
  destruct (writable fs fname); simpl; [|done].
  by rewrite !lookup_insert_ne.
Qed.

Lemma WriteStrings_readable fs fname v f :
  readable (WriteStrings fs fname v) f = readable fs f.
Proof. unfold WriteStrings, ofstream. by destruct (writable fs fname). Qed.

(** C4.  For a file that opens for reading, [ReadStrings] returns exactly
    the non-blank lines of its text, in the order of the text and with
    their content untouched: the lines are the pieces of the text between
    its line breaks, which put back together are the text itself.  So the
    number of lines returned is the number of non-blank lines. *)
Theorem ReadStrings_nonblank_lines (fs : filesystem) (fname : string)
    (infile : list ascii) (v : list (list ascii)) :
  ifstream fs fname = Some infile →
  ReadStrings fs fname v = filter (λ l, l ≠ []) (pieces infile)
  ∧ join_lines (pieces infile) = infile
  ∧ (∀ l, l ∈ pieces infile → newline ∉ l)
  ∧ (∀ l, l ∈ ReadStrings fs fname v ↔ l ≠ [] ∧ l ∈ pieces infile)
  ∧ sublist (ReadStrings fs fname v) (pieces infile)
  ∧ length (ReadStrings fs fname v) = length (nonblank_lines infile).
Proof.
  intros Hopen. rewrite ReadStrings_ifstream, Hopen. split_and!.
  - done.
  - apply join_lines_pieces.
  - apply pieces_no_newline.
  - intros l. unfold nonblank_lines. by rewrite list_elem_of_filter.
  - apply sublist_filter.
  - done.
Qed.

Lemma ReadStrings_nonblank_lines_witness :
  ReadStrings example_fs "Input.txt" [txt "stale"]
  = [txt "apple"; txt "banana"; txt " cherry "].
Proof.
  pose proof (ReadStrings_nonblank_lines example_fs "Input.txt"
    (txt "apple" ++ [newline] ++ [newline] ++ txt "banana" ++ [newline]
     ++ txt " cherry ") [txt "stale"] eq_refl) as [H _].
  rewrite H. reflexivity.
Defined.

(** C10.  What [ReadStrings] returns does not depend on what the vector
    held before the call: the vector is cleared first, so the result is the
    non-blank lines of the file and nothing else (the loop on its own would
    append them to what the vector held). *)
Theorem ReadStrings_clears (fs : filesystem) (fname : string)
    (v0 v1 : list (list ascii)) :
  ReadStrings fs fname v0 = ReadStrings fs fname v1
  ∧ ReadStrings fs fname v0
    = match ifstream fs fname with
      | Some infile => nonblank_lines infile
      | None => []
      end
  ∧ (∀ infile, ReadStrings_loop infile v0 = v0 ++ nonblank_lines infile).
Proof.
  split_and!.
  - by rewrite !ReadStrings_ifstream.
  - apply ReadStrings_ifstream.
  - intros infile.
    by rewrite ReadStrings_loop_app, ReadStrings_loop_nonblank_lines.
Qed.

(** C5.  For a file that opens for writing, [WriteStrings] leaves in it one
    record per string, each ended by a line break, in the order of the
    vector, whatever the file held before; the other files are untouched.
    An empty vector leaves an empty file.  When no string holds a line
    break, the text written has exactly one line per string. *)
Theorem WriteStrings_records (fs : filesystem) (fname : string)
    (v : list (list ascii)) :
  writable fs fname = true →
  contents (WriteStrings fs fname v) !! fname = Some (records v)
  ∧ records v = concat ((λ s, s ++ [newline]) <$> v)
  ∧ (∀ prior, contents
       (WriteStrings (FileSystem (<[fname := prior]> (contents fs))
                        (readable fs) (writable fs)) fname v) !! fname
     = Some (records v))
  ∧ (∀ f, f ≠ fname → contents (WriteStrings fs fname v) !! f = contents fs !! f)
  ∧ contents (WriteStrings fs fname []) !! fname = Some []
  ∧ (Forall (λ s, newline ∉ s) v → pieces (records v) = v ++ [[]]).
Proof.
  intros Hw. split_and!.
  - by apply WriteStrings_lookup.
  - unfold records. induction v as [|s v IH]; csimpl; [done|]. by rewrite IH.
  - intros prior. by apply WriteStrings_lookup.
  - intros f Hf. by apply WriteStrings_lookup_ne.
  - by rewrite WriteStrings_lookup.
  - apply pieces_records.
Qed.

Lemma WriteStrings_records_witness :
  contents (WriteStrings example_fs "Output.txt" [txt "b"; txt "a"]) !! "Output.txt"%string
  = Some (txt "b" ++ [newline] ++ txt "a" ++ [newline]).
Proof.
  pose proof (WriteStrings_records example_fs "Output.txt" [txt "b"; txt "a"]
    eq_refl) as [H _].
  rewrite H. reflexivity.
Defined.

(** C7.  Strings that are not empty and hold no line break, written with
    [WriteStrings] and read back with [ReadStrings] from the same file, come
    back as the vector that was written. *)
Theorem write_read_round_trip (fs : filesystem) (fname : string)
    (v v0 : list (list ascii)) :
  Forall (λ s, s ≠ [] ∧ newline ∉ s) v →
  writable fs fname = true → readable fs fname = true →
  ReadStrings (WriteStrings fs fname v) fname v0 = v.
Proof.
  intros Hv Hw Hr. rewrite ReadStrings_ifstream. unfold ifstream.
  rewrite WriteStrings_readable, Hr, WriteStrings_lookup by done.
  by apply nonblank_lines_records.
Qed.

Lemma write_read_round_trip_witness :
  ReadStrings (WriteStrings example_fs "Output.txt" [txt "b c"; txt "a"])
    "Output.txt" []
  = [txt "b c"; txt "a"].
Proof.
  apply (write_read_round_trip example_fs "Output.txt" [txt "b c"; txt "a"] []);
    [|reflexivity|reflexivity].
  by repeat (apply Forall_cons; split; [by apply (bool_decide_unpack _)|]).
Defined.

(** ** The whole program *)

Section MainFacts.
Context {G : Type}.
Variable seed : Z → G.
Variable draw : nat → nat → G → nat * G.

Lemma Randomize_Permutation {A : Type} now (v v' : list A) :
  Randomize seed draw now v = Some v' → v' ≡ₚ v.
Proof.
  unfold Randomize.
  destruct (Randomize_loop draw 0 _ v) as [[w g']|] eqn:Hr; intros [= <-].
  by eapply Randomize_loop_Permutation.
Qed.

Lemma Randomize_defined {A : Type} now (v : list A) :
  in_range draw → is_Some (Randomize seed draw now v).
Proof.
  intros Hdraw. unfold Randomize.
  destruct (Randomize_loop_defined draw 0 (seed (GetEpochTime now)) v Hdraw)
    as [[w g'] ->].
  by eexists.
Qed.

Lemma main_output fs now v' :
  Randomize seed draw now (ReadStrings fs "Input.txt" []) = Some v' →
  main seed draw fs now = Some (WriteStrings fs "Output.txt" v', 0%Z).
Proof. intros Hr. unfold main. by rewrite Hr. Qed.

End MainFacts.

(** A run of the whole program on the example directory: the draws are
    [0], [1], [1], so the last two of the three lines change places. *)
Example main_example :
  draws modulo_draw 0 3 (minstd_seed (GetEpochTime 1700000000)) = [0; 1; 1]
  ∧ (λ r, (contents r.1 !! "Output.txt"%string, r.2))
      <$> main minstd_seed modulo_draw example_fs 1700000000
    = Some (Some (txt "apple" ++ [newline] ++ txt " cherry " ++ [newline]
                  ++ txt "banana" ++ [newline]), 0%Z).
Proof. split; reflexivity. Qed.

(** C3.  The shuffle only reorders: whatever the draws, a run that stays
    inside the vector leaves a rearrangement of it, and with a generator
    that keeps to the requested ranges every run does.  So the non-blank
    lines of the output file are, as a multiset, the non-blank lines of the
    input file. *)
Theorem Randomize_conserves_multiset {A G : Type} (seed : Z → G)
    (draw : nat → nat → G → nat * G) :
  (∀ now (v v' : list A), Randomize seed draw now v = Some v' → v' ≡ₚ v)
  ∧ (∀ js (v v' : list A), outcome js v = Some v' → v' ≡ₚ v)
  ∧ (in_range draw →
     ∀ now (v : list A), ∃ v', Randomize seed draw now v = Some v' ∧ v' ≡ₚ v)
  ∧ (in_range draw →
     ∀ fs now infile,
       ifstream fs "Input.txt" = Some infile →
       writable fs "Output.txt" = true →
       ∃ fs' outfile,
         main seed draw fs now = Some (fs', 0%Z)
         ∧ contents fs' !! "Output.txt"%string = Some outfile
         ∧ nonblank_lines outfile ≡ₚ nonblank_lines infile).
Proof.
  split_and!.
  - intros now v v'. apply Randomize_Permutation.
  - intros js v v'. unfold outcome.
    destruct (Randomize_loop scripted 0 js v) as [[w g']|] eqn:Hr; intros [= <-].
    by eapply Randomize_loop_Permutation.
  - intros Hdraw now v.
    destruct (Randomize_defined seed draw now v Hdraw) as [v' Hv'].
    exists v'. split; [done|]. by eapply Randomize_Permutation.
  - intros Hdraw fs now infile Hopen Hw.
    destruct (Randomize_defined seed draw now (ReadStrings fs "Input.txt" []) Hdraw)
      as [v' Hv'].
    exists (WriteStrings fs "Output.txt" v'), (records v'). split_and!.
    + by apply main_output.
    + by apply WriteStrings_lookup.
    + apply Randomize_Permutation in Hv'.
      rewrite ReadStrings_ifstream, Hopen in Hv'.
      rewrite nonblank_lines_records; [done|].
      rewrite Hv'. apply nonblank_lines_Forall.
Qed.

Lemma Randomize_conserves_multiset_witness :
  ∃ v', Randomize minstd_seed modulo_draw 1700000000
          [txt "a"; txt "b"; txt "c"; txt "d"] = Some v'
        ∧ v' ≡ₚ [txt "a"; txt "b"; txt "c"; txt "d"].
Proof.
  apply (proj1 (proj2 (proj2 (Randomize_conserves_multiset minstd_seed modulo_draw)))).
  apply modulo_draw_in_range.
Defined.

(** C8.  When [Input.txt] is missing or may not be read, nothing is
    reported: [ReadStrings] returns the empty vector, [main] runs to its
    end with exit code [0], and [Output.txt] is left empty, as it is for an
    input without any non-blank line. *)
Theorem main_missing_input {G : Type} (seed : Z → G)
    (draw : nat → nat → G → nat * G) (fs : filesystem) (now : Z) :
  contents fs !! "Input.txt"%string = None ∨ readable fs "Input.txt" = false →
  (∀ v0, ReadStrings fs "Input.txt" v0 = [])
  ∧ main seed draw fs now = Some (WriteStrings fs "Output.txt" [], 0%Z)
  ∧ (writable fs "Output.txt" = true →
     contents (WriteStrings fs "Output.txt" []) !! "Output.txt"%string = Some []
     ∧ ∀ fs2 infile,
         ifstream fs2 "Input.txt" = Some infile → nonblank_lines infile = [] →
         writable fs2 "Output.txt" = true →
         ∃ fs2', main seed draw fs2 now = Some (fs2', 0%Z)
                 ∧ contents fs2' !! "Output.txt"%string = Some []).
Proof.
  intros Hin.
  assert (ifstream fs "Input.txt" = None) as Hopen.
  { unfold ifstream. destruct Hin as [-> | ->]; [by destruct (readable _ _)|done]. }
  assert (∀ v0, ReadStrings fs "Input.txt" v0 = []) as Hread.
  { intros v0. by rewrite ReadStrings_ifstream, Hopen. }
  split_and!; [done| |].
  - apply main_output. by rewrite Hread.
  - intros Hw. split; [by rewrite WriteStrings_lookup|].
    intros fs2 infile Hopen2 Hblank Hw2.
    exists (WriteStrings fs2 "Output.txt" []). split.
    + apply main_output. by rewrite ReadStrings_ifstream, Hopen2, Hblank.
    + by rewrite WriteStrings_lookup.
Qed.

Lemma main_missing_input_witness :
  main minstd_seed modulo_draw empty_fs 1700000000
  = Some (WriteStrings empty_fs "Output.txt" [], 0%Z).
Proof.
  apply (main_missing_input minstd_seed modulo_draw empty_fs 1700000000).
  left. reflexivity.
Defined.

(** C9.  Two runs of the program on the same input, at clock readings that
    give the same seed, shuffle the lines into the same order and leave
    the same [Output.txt]. *)
Theorem main_deterministic {G : Type} (seed : Z → G)
    (draw : nat → nat → G → nat * G) (fs1 fs2 : filesystem) (t1 t2 : Z) :
  GetEpochTime t1 = GetEpochTime t2 →
  ifstream fs1 "Input.txt" = ifstream fs2 "Input.txt" →
  writable fs1 "Output.txt" = true → writable fs2 "Output.txt" = true →
  Randomize seed draw t1 (ReadStrings fs1 "Input.txt" [])
  = Randomize seed draw t2 (ReadStrings fs2 "Input.txt" [])
  ∧ (λ r, (contents r.1 !! "Output.txt"%string, r.2)) <$> main seed draw fs1 t1
    = (λ r, (contents r.1 !! "Output.txt"%string, r.2)) <$> main seed draw fs2 t2
  ∧ (fs1 = fs2 → main seed draw fs1 t1 = main seed draw fs2 t2).
Proof.
  intros Ht Hin Hw1 Hw2.
  assert (∀ A (v : list A), Randomize seed draw t1 v = Randomize seed draw t2 v)
    as Hrand by (intros A v; unfold Randomize; by rewrite Ht).
  assert (ReadStrings fs1 "Input.txt" [] = ReadStrings fs2 "Input.txt" []) as Hread
    by (by rewrite !ReadStrings_ifstream, Hin).
  split_and!.
  - by rewrite Hread, Hrand.
  - unfold main. rewrite Hread, Hrand.
    destruct (Randomize seed draw t2 _) as [v'|]; [|done]. simpl.
    by rewrite !WriteStrings_lookup.
  - intros <-. unfold main. by rewrite Hrand.
Qed.

Lemma main_deterministic_witness :
  main minstd_seed modulo_draw example_fs 1700000000
  = main minstd_seed modulo_draw example_fs (1700000000 + 2 ^ 32).
Proof.
  apply (main_deterministic minstd_seed modulo_draw example_fs example_fs
           1700000000 (1700000000 + 2 ^ 32));
    reflexivity.
Defined.

(** * More of the program *)

(** ** The seed *)

(** X1.  The seed [GetEpochTime] gives is a 32-bit value; it is the clock
    reading itself while that fits in 32 bits, and it comes round again
    every [2^32] seconds, so that [Randomize] then shuffles as it did
    [2^32] seconds before. *)
Theorem GetEpochTime_wraps {A G : Type} (seed : Z → G)
    (draw : nat → nat → G → nat * G) (now k : Z) (v : list A) :
  (0 ≤ GetEpochTime now < 2 ^ 32)%Z
  ∧ ((0 ≤ now < 2 ^ 32)%Z → GetEpochTime now = now)
  ∧ GetEpochTime (now + k * 2 ^ 32) = GetEpochTime now
  ∧ Randomize seed draw (now + k * 2 ^ 32) v = Randomize seed draw now v
  ∧ (∀ t1 t2, (0 ≤ t1 < 2 ^ 32)%Z → (0 ≤ t2 < 2 ^ 32)%Z →
       GetEpochTime t1 = GetEpochTime t2 → t1 = t2).
Proof.
  unfold Randomize, GetEpochTime. split; [|split; [|split; [|split]]].
  - by apply Z.mod_pos_bound.
  - intros Hnow. by apply Z.mod_small.
  - by apply Z_mod_plus_full.
  - by rewrite Z_mod_plus_full.
  - intros t1 t2 H1 H2. by rewrite !Z.mod_small.
Qed.

Lemma GetEpochTime_wraps_witness : GetEpochTime 1700000000 = 1700000000%Z.
Proof.
  apply (proj1 (proj2 (GetEpochTime_wraps minstd_seed modulo_draw 1700000000 0
                         (@nil nat)))).
  lia.
Defined.

(** ** The loop of the shuffle, iteration by iteration *)

Section LoopFacts.
Context {A G : Type}.
Variable draw : nat → nat → G → nat * G.
Implicit Types (v : list A) (g : G) (i j k n : nat).

Lemma draws_snoc i k g :
  draws draw i (S k) g
  = draws draw i k g ++ [(draw 0 (i + k) (advance draw i k g)).1].
Proof.
  revert i g. induction k as [|k IH]; intros i g.
  - simpl. by rewrite Nat.add_0_r.
  - change (draws draw i (S (S k)) g)
      with ((draw 0 i g).1 :: draws draw (S i) (S k) (draw 0 i g).2).
    rewrite (IH (S i)). cbn [draws advance app].
    by rewrite Nat.add_succ_r.
Qed.

(** The loop can be stopped after [k] iterations and resumed. *)
Lemma Randomize_loop_resume i k g v :
  i + k ≤ length v →
  Forall (λ j, j < length v) (draws draw i k g) →
  Randomize_loop draw i g v
  = Randomize_loop draw (i + k) (advance draw i k g)
      (exchanges i (draws draw i k g) v).
Proof.
  revert i g v. induction k as [|k IH]; intros i g v Hk Hjs.
  - simpl. by rewrite Nat.add_0_r.
  - cbn [draws advance exchanges] in *. apply Forall_cons in Hjs as [Hj Hjs].
    rewrite Randomize_loop_step, !decide_True by lia.
    rewrite (IH (S i)); rewrite ?swap_length; [|lia|done].
    by rewrite Nat.add_succ_r.
Qed.

Lemma draws_in_range_Forall i k g v :
  in_range draw → i + k ≤ length v →
  Forall (λ j, j < length v) (draws draw i k g).
Proof.
  intros Hdraw Hk. apply Forall_lookup. intros n j Hn.
  pose proof (lookup_draws_in_range draw i k g n j Hdraw Hn).
  apply lookup_lt_Some in Hn. rewrite length_draws in Hn. lia.
Qed.

Lemma script_draws k g : in_range draw → script k (draws draw 0 k g).
Proof.
  intros Hdraw. split; [apply length_draws|].
  intros n j Hn. by apply (lookup_draws_in_range draw 0 k g n j Hdraw).
Qed.

(** The loop stays inside the vector exactly when every draw does. *)
Lemma Randomize_loop_is_Some i g v :
  is_Some (Randomize_loop draw i g v)
  ↔ Forall (λ j, j < length v) (draws draw i (length v - i) g).
Proof.
  remember (length v - i) as k eqn:Hk. revert i g v Hk.
  induction k as [|k IH]; intros i g v Hk; rewrite Randomize_loop_step.
  - rewrite decide_False by lia. split; [by constructor|by eexists].
  - rewrite decide_True by lia. cbn [draws]. rewrite Forall_cons.
    case_decide as Hj.
    + rewrite (IH (S i)) by (rewrite swap_length; lia).
      rewrite swap_length. split; [by split|by intros [_ ?]].
    + split; [by intros [??]|by intros [??]].
Qed.

End LoopFacts.

(** X2.  The invariant of the loop of [Randomize], for a generator that
    keeps to the requested ranges: after [k] iterations the first [k] slots
    hold a rearrangement of the first [k] elements and the other slots are
    untouched; the whole run is the run resumed from there; and the
    iteration with [i = k] leaves the element that stood at position [k] at
    the position it drew. *)
Theorem Randomize_loop_invariant {A G : Type} (draw : nat → nat → G → nat * G)
    (g : G) (v : list A) (k : nat) :
  in_range draw → k ≤ length v →
  Randomize_loop draw 0 g v
  = Randomize_loop draw k (advance draw 0 k g) (after_steps draw k g v)
  ∧ length (after_steps draw k g v) = length v
  ∧ take k (after_steps draw k g v) ≡ₚ take k v
  ∧ drop k (after_steps draw k g v) = drop k v
  ∧ (k < length v →
     after_steps draw (S k) g v !! (draw 0 k (advance draw 0 k g)).1 = v !! k).
Proof.
  intros Hdraw Hk. unfold after_steps.
  pose proof (script_draws draw k g Hdraw) as Hjs.
  assert (exchanges 0 (draws draw 0 k g) v
          = exchanges 0 (draws draw 0 k g) (take k v) ++ drop k v) as Hsplit.
  { rewrite <-(take_drop k v) at 1.
    apply (exchanges_app k); [done|]. rewrite length_take. lia. }
  assert (length (exchanges 0 (draws draw 0 k g) (take k v)) = k) as Hlen.
  { rewrite exchanges_length, length_take. lia. }
  split_and!.
  - rewrite (Randomize_loop_resume draw 0 k); [done|lia|].
    by apply draws_in_range_Forall.
  - apply exchanges_length.
  - rewrite Hsplit, take_app_length' by done. apply exchanges_Permutation.
  - rewrite Hsplit, drop_app_length' by done. done.
  - intros Hlt. rewrite draws_snoc, exchanges_snoc, length_draws. simpl.
    pose proof (Hdraw 0 k (advance draw 0 k g)) as Hj.
    rewrite swap_lookup by (rewrite exchanges_length; lia).
    replace (transpose k _ _) with k
      by (unfold transpose; repeat case_decide; lia).
    rewrite Hsplit, lookup_app_r by lia.
    rewrite Hlen, Nat.sub_diag, lookup_drop. f_equal. lia.
Qed.

Lemma Randomize_loop_invariant_witness :
  drop 2 (after_steps modulo_draw 2 1%Z [txt "a"; txt "b"; txt "c"; txt "d"])
  = [txt "c"; txt "d"].
Proof.
  apply (Randomize_loop_invariant modulo_draw 1%Z
           [txt "a"; txt "b"; txt "c"; txt "d"] 2 modulo_draw_in_range).
  simpl. lia.
Defined.

(** X3.  The only slot [Randomize] may reach past the end of the vector is
    the drawn one: a run stays inside the vector exactly when every value
    drawn is below the size of the vector (the range asked for, [[0, i]],
    is more than that needs). *)
Theorem Randomize_in_bounds {A G : Type} (seed : Z → G)
    (draw : nat → nat → G → nat * G) (g : G) (now : Z) (v : list A) :
  (is_Some (Randomize_loop draw 0 g v)
   ↔ Forall (λ j, j < length v) (draws draw 0 (length v) g))
  ∧ (is_Some (Randomize seed draw now v)
     ↔ Forall (λ j, j < length v)
         (draws draw 0 (length v) (seed (GetEpochTime now))))
  ∧ (∀ js, is_Some (outcome js v) →
       ∀ k j, k < length v → js !! k = Some j → j < length v).
Proof.
  split_and!.
  - rewrite Randomize_loop_is_Some. by rewrite Nat.sub_0_r.
  - unfold Randomize. rewrite fmap_is_Some, Randomize_loop_is_Some.
    by rewrite Nat.sub_0_r.
  - intros js. unfold outcome.
    rewrite fmap_is_Some, Randomize_loop_is_Some, Nat.sub_0_r.
    intros Hall k j Hk Hj.
    assert (∀ i n js k j, k < n → js !! k = Some j →
              draws scripted i n js !! k = Some j) as Hdraws.
    { clear. intros i n. revert i. induction n as [|n IH]; intros i js k j Hk Hj;
        [lia|].
      destruct js as [|j0 js]; [done|]. destruct k as [|k]; simpl in *.
      - done.
      - apply IH; [lia|done]. }
    eapply (Forall_lookup_1 _ _ k j) in Hall; [done|by apply Hdraws].
Qed.

(** ** Reading, line break by line break *)

Lemma pieces_app_newline s1 s2 :
  pieces (s1 ++ newline :: s2) = pieces s1 ++ pieces s2.
Proof.
  induction s1 as [|c s1 IH]; cbn [app pieces].
  - by rewrite decide_True.
  - rewrite IH. pose proof (pieces_not_nil s1).
    case_decide; [done|]. by destruct (pieces s1).
Qed.

Lemma nonblank_lines_app s1 s2 :
  nonblank_lines (s1 ++ newline :: s2) = nonblank_lines s1 ++ nonblank_lines s2.
Proof. unfold nonblank_lines. by rewrite pieces_app_newline, filter_app. Qed.

Lemma ReadStrings_loop_nonblank_lines_app infile v :
  ReadStrings_loop infile v = v ++ nonblank_lines infile.
Proof. by rewrite ReadStrings_loop_app, ReadStrings_loop_nonblank_lines. Qed.

Lemma nonblank_lines_no_newline s :
  newline ∉ s → nonblank_lines s = if decide (s = []) then [] else [s].
Proof.
  intros Hs. unfold nonblank_lines.
  rewrite pieces_getline_extract, getline_extract_no_newline by done.
  rewrite decide_False by done. cbn [fst]. rewrite filter_cons, filter_nil.
  destruct (decide (s = [])); [by rewrite decide_False by (by intros ?)|].
  by rewrite decide_True.
Qed.

Lemma nonblank_lines_records_bind v :
  nonblank_lines (records v) = v ≫= nonblank_lines.
Proof.
  induction v as [|s v IH]; [done|].
  unfold records in *. csimpl. rewrite <-(assoc_L (++)). cbn [app].
  by rewrite nonblank_lines_app, IH.
Qed.

(** X4.  Reading composes at line breaks: the lines of a text made of two
    texts with a line break between them are the lines of the first
    followed by the lines of the second, and the loop of [ReadStrings] over
    it is the loop over the second text continued from the loop over the
    first. *)
Theorem ReadStrings_loop_compose (s1 s2 : list ascii) (v : list (list ascii)) :
  ReadStrings_loop (s1 ++ newline :: s2) v
  = ReadStrings_loop s2 (ReadStrings_loop s1 v)
  ∧ ReadStrings_loop (s1 ++ newline :: s2) []
    = ReadStrings_loop s1 [] ++ ReadStrings_loop s2 [].
Proof.
  rewrite !ReadStrings_loop_nonblank_lines_app, nonblank_lines_app.
  by rewrite (assoc_L (++)).
Qed.

(** X5.  Blank lines and a line break at the end of the text make no
    difference to what [ReadStrings] collects: a line break may be appended
    or put in front, a blank line may be put between any two lines, and a
    text of line breaks alone adds nothing to the vector. *)
Theorem ReadStrings_loop_blank_lines (s1 s2 : list ascii)
    (v : list (list ascii)) (n : nat) :
  ReadStrings_loop (s1 ++ [newline]) v = ReadStrings_loop s1 v
  ∧ ReadStrings_loop (newline :: s2) v = ReadStrings_loop s2 v
  ∧ ReadStrings_loop (s1 ++ newline :: newline :: s2) v
    = ReadStrings_loop (s1 ++ newline :: s2) v
  ∧ ReadStrings_loop (replicate n newline) v = v.
Proof.
  rewrite !ReadStrings_loop_nonblank_lines_app.
  assert (∀ s, nonblank_lines (newline :: s) = nonblank_lines s) as Hnl
    by (intros s; apply (nonblank_lines_app [] s)).
  assert (nonblank_lines [] = []) as Hnil by done.
  split_and!.
  - by rewrite nonblank_lines_app, Hnil, app_nil_r.
  - by rewrite Hnl.
  - by rewrite !nonblank_lines_app, Hnl.
  - induction n as [|n IH]; cbn [replicate]; [by rewrite Hnil, app_nil_r|].
    by rewrite Hnl.
Qed.

(** X6.  A last line that no line break ends is read like the others: a
    non-empty text without line breaks is one line, and after a line break
    it is the last line collected. *)
Theorem ReadStrings_loop_last_line (s l : list ascii) (v : list (list ascii)) :
  newline ∉ l → l ≠ [] →
  ReadStrings_loop l v = v ++ [l]
  ∧ ReadStrings_loop (s ++ newline :: l) v = ReadStrings_loop s v ++ [l].
Proof.
  intros Hnl Hl. rewrite !ReadStrings_loop_nonblank_lines_app.
  rewrite nonblank_lines_app, nonblank_lines_no_newline by done.
  rewrite decide_False by done. by rewrite (assoc_L (++)).
Qed.

Lemma ReadStrings_loop_last_line_witness :
  ReadStrings_loop (txt "a" ++ newline :: txt "b c") [] = [txt "a"; txt "b c"].
Proof.
  apply (ReadStrings_loop_last_line (txt "a") (txt "b c") []).
  - by apply (bool_decide_unpack _).
  - done.
Defined.

(** ** Writing and reading back *)

Lemma ReadStrings_WriteStrings fs fname v v0 :
  writable fs fname = true → readable fs fname = true →
  ReadStrings (WriteStrings fs fname v) fname v0 = nonblank_lines (records v).
Proof.
  intros Hw Hr. rewrite ReadStrings_ifstream. unfold ifstream.
  by rewrite WriteStrings_readable, Hr, WriteStrings_lookup.
Qed.

(** X7.  What [ReadStrings] reads back from a file [WriteStrings] wrote is,
    string by string, the non-blank lines of each string: an empty string
    is lost and a string with line breaks inside comes back in pieces.  So
    the vector comes back as written exactly when every string is
    non-empty and free of line breaks. *)
Theorem write_read_any (fs : filesystem) (fname : string)
    (v v0 : list (list ascii)) :
  writable fs fname = true → readable fs fname = true →
  ReadStrings (WriteStrings fs fname v) fname v0 = v ≫= nonblank_lines
  ∧ (ReadStrings (WriteStrings fs fname v) fname v0 = v
     ↔ Forall (λ s, s ≠ [] ∧ newline ∉ s) v).
Proof.
  intros Hw Hr. rewrite ReadStrings_WriteStrings by done. split.
  - apply nonblank_lines_records_bind.
  - split; [|apply nonblank_lines_records].
    intros <-. apply nonblank_lines_Forall.
Qed.

Lemma write_read_any_witness :
  ReadStrings
    (WriteStrings example_fs "Output.txt" [txt "a" ++ newline :: txt "b"; []; txt "c"])
    "Output.txt" []
  = [txt "a"; txt "b"; txt "c"].
Proof.
  pose proof (write_read_any example_fs "Output.txt"
    [txt "a" ++ newline :: txt "b"; []; txt "c"] [] eq_refl eq_refl) as [H _].
  rewrite H. reflexivity.
Defined.

(** X8.  Lines read by [ReadStrings] pass through [WriteStrings] and
    [ReadStrings] unchanged: what is read from the file written from them is
    the same vector. *)
Theorem read_write_read (fs : filesystem) (fin fout : string)
    (v0 v1 : list (list ascii)) :
  writable fs fout = true → readable fs fout = true →
  ReadStrings (WriteStrings fs fout (ReadStrings fs fin v0)) fout v1
  = ReadStrings fs fin v0.
Proof.
  intros Hw Hr. rewrite ReadStrings_WriteStrings by done.
  apply nonblank_lines_records. rewrite ReadStrings_ifstream.
  destruct (ifstream fs fin); [apply nonblank_lines_Forall|constructor].
Qed.

Lemma read_write_read_witness :
  ReadStrings (WriteStrings example_fs "Output.txt"
                 (ReadStrings example_fs "Input.txt" [])) "Output.txt" []
  = ReadStrings example_fs "Input.txt" [].
Proof.
  apply (read_write_read example_fs "Input.txt" "Output.txt" [] []); reflexivity.
Defined.

(** X9.  The last [WriteStrings] to a file wins: nothing of an earlier
    write to the same file is left.  And a write to one file does not change
    what [ReadStrings] gets from another. *)
Theorem WriteStrings_overwrite (fs : filesystem) (fname other : string)
    (v1 v2 v0 : list (list ascii)) :
  WriteStrings (WriteStrings fs fname v1) fname v2 = WriteStrings fs fname v2
  ∧ (other ≠ fname →
     ReadStrings (WriteStrings fs fname v1) other v0 = ReadStrings fs other v0).
Proof.
  split.
  - unfold WriteStrings, ofstream.
    destruct (writable fs fname) eqn:Hw; cbn [contents readable writable];
      rewrite Hw; [|done].
    cbn [contents readable writable]. by rewrite !insert_insert_eq.
  - intros Hne. rewrite !ReadStrings_ifstream. unfold ifstream.
    by rewrite WriteStrings_readable, WriteStrings_lookup_ne.
Qed.

Lemma WriteStrings_overwrite_witness :
  ReadStrings (WriteStrings example_fs "Output.txt" [txt "x"]) "Input.txt" []
  = ReadStrings example_fs "Input.txt" [].
Proof.
  apply (proj2 (WriteStrings_overwrite example_fs "Output.txt" "Input.txt"
                  [txt "x"] [] [])).
  done.
Defined.

Lemma line_breaks_app s1 s2 :
  line_breaks (s1 ++ s2) = line_breaks s1 + line_breaks s2.
Proof. unfold line_breaks. by rewrite filter_app, length_app. Qed.

Lemma line_breaks_no_newline s : newline ∉ s → line_breaks s = 0.
Proof.
  unfold line_breaks. induction s as [|c s IH]; [done|].
  intros [Hc Hs]%not_elem_of_cons.
  rewrite filter_cons, decide_False by congruence. by apply IH.
Qed.

Lemma length_records v : length (records v) = sum_list_with length v + length v.
Proof.
  induction v as [|s v IH]; [done|].
  change (records (s :: v)) with ((s ++ [newline]) ++ records v).
  rewrite !length_app, IH. simpl. lia.
Qed.

Lemma line_breaks_records v :
  line_breaks (records v) = sum_list_with line_breaks v + length v.
Proof.
  induction v as [|s v IH]; [done|].
  change (records (s :: v)) with ((s ++ [newline]) ++ records v).
  rewrite !line_breaks_app, IH.
  change (line_breaks [newline]) with 1. simpl. lia.
Qed.

(** X10.  [WriteStrings] adds to the stream the characters of the strings
    and one line break per string, nothing else: the text grows by the
    lengths of the strings plus their number, and its line breaks are those
    inside the strings plus one per string. *)
Theorem WriteStrings_loop_size (outfile : list ascii) (v : list (list ascii)) :
  length (WriteStrings_loop outfile v)
  = length outfile + sum_list_with length v + length v
  ∧ line_breaks (WriteStrings_loop outfile v)
    = line_breaks outfile + sum_list_with line_breaks v + length v
  ∧ take (length outfile) (WriteStrings_loop outfile v) = outfile.
Proof.
  rewrite WriteStrings_loop_records. rewrite length_app, line_breaks_app.
  rewrite take_app_length, length_records, line_breaks_records.
  split_and!; [lia|lia|done].
Qed.

(** ** The whole program, file by file *)

Lemma Randomize_short {A G : Type} (seed : Z → G)
    (draw : nat → nat → G → nat * G) now (v : list A) :
  in_range draw → length v ≤ 1 → Randomize seed draw now v = Some v.
Proof.
  intros Hdraw Hlen. unfold Randomize. rewrite Randomize_loop_draws by done.
  destruct v as [|x [|??]]; simpl in *; [done| |lia].
  pose proof (Hdraw 0 0 (seed (GetEpochTime now))).
  assert ((draw 0 0 (seed (GetEpochTime now))).1 = 0) as -> by lia.
  by rewrite swap_same.
Qed.

Lemma main_Some {G : Type} (seed : Z → G) (draw : nat → nat → G → nat * G)
    fs now fs' code :
  main seed draw fs now = Some (fs', code) →
  ∃ v', Randomize seed draw now (ReadStrings fs "Input.txt" []) = Some v'
        ∧ fs' = WriteStrings fs "Output.txt" v' ∧ code = 0%Z.
Proof.
  unfold main.
  destruct (Randomize seed draw now _) as [v'|]; [|done].
  intros [= <- <-]. eauto.
Qed.

(** X11.  Whatever [main] does, it does to [Output.txt]: when it returns,
    its exit code is [0], every other file holds what it held, [Input.txt]
    among them, and what may be read or written is as before. *)
Theorem main_frame {G : Type} (seed : Z → G) (draw : nat → nat → G → nat * G)
    (fs fs' : filesystem) (now code : Z) :
  main seed draw fs now = Some (fs', code) →
  code = 0%Z
  ∧ (∀ f, f ≠ "Output.txt"%string → contents fs' !! f = contents fs !! f)
  ∧ contents fs' !! "Input.txt"%string = contents fs !! "Input.txt"%string
  ∧ (∀ v0, ReadStrings fs' "Input.txt" v0 = ReadStrings fs "Input.txt" v0)
  ∧ (∀ f, readable fs' f = readable fs f ∧ writable fs' f = writable fs f).
Proof.
  intros (v' & _ & -> & ->)%main_Some. split_and!.
  - done.
  - intros f Hf. by apply WriteStrings_lookup_ne.
  - by apply WriteStrings_lookup_ne.
  - intros v0. rewrite !ReadStrings_ifstream. unfold ifstream.
    by rewrite WriteStrings_readable, WriteStrings_lookup_ne.
  - intros f. split; [apply WriteStrings_readable|].
    unfold WriteStrings, ofstream. by destruct (writable fs "Output.txt").
Qed.

Lemma main_frame_witness :
  contents (WriteStrings example_fs "Output.txt"
              [txt "apple"; txt " cherry "; txt "banana"]) !! "Input.txt"%string
  = contents example_fs !! "Input.txt"%string.
Proof.
  apply (main_frame minstd_seed modulo_draw example_fs
           (WriteStrings example_fs "Output.txt"
              [txt "apple"; txt " cherry "; txt "banana"])
           1700000000 0).
  reflexivity.
Defined.

(** X12.  When [Output.txt] may not be written, [main] changes nothing and
    still ends with exit code [0] (with a generator that keeps to the
    requested ranges). *)
Theorem main_unwritable_output {G : Type} (seed : Z → G)
    (draw : nat → nat → G → nat * G) (fs : filesystem) (now : Z) :
  in_range draw → writable fs "Output.txt" = false →
  main seed draw fs now = Some (fs, 0%Z).
Proof.
  intros Hdraw Hw.
  destruct (Randomize_defined seed draw now (ReadStrings fs "Input.txt" []) Hdraw)
    as [v' Hv'].
  rewrite (main_output seed draw fs now v' Hv').
  unfold WriteStrings, ofstream. by rewrite Hw.
Qed.

Lemma main_unwritable_output_witness :
  main minstd_seed modulo_draw readonly_fs 1700000000 = Some (readonly_fs, 0%Z).
Proof.
  apply (main_unwritable_output minstd_seed modulo_draw readonly_fs 1700000000
           modulo_draw_in_range).
  reflexivity.
Defined.

(** X13.  With a generator that keeps to the requested ranges, an input
    that opens and an output that may be written, [main] leaves in
    [Output.txt] the non-blank lines of [Input.txt] in some order, one per
    line and each ended by a line break: the output has no blank line, as
    many line breaks as the input has non-blank lines, and read back with
    [ReadStrings] it gives the lines in the order [main] wrote them. *)
Theorem main_output_lines {G : Type} (seed : Z → G)
    (draw : nat → nat → G → nat * G) (fs : filesystem) (now : Z)
    (infile : list ascii) :
  in_range draw →
  ifstream fs "Input.txt" = Some infile →
  writable fs "Output.txt" = true →
  ∃ v' fs',
    main seed draw fs now = Some (fs', 0%Z)
    ∧ v' ≡ₚ nonblank_lines infile
    ∧ contents fs' !! "Output.txt"%string = Some (records v')
    ∧ pieces (records v') = v' ++ [[]]
    ∧ line_breaks (records v') = length (nonblank_lines infile)
    ∧ (readable fs "Output.txt" = true →
       ∀ v0, ReadStrings fs' "Output.txt" v0 = v').
Proof.
  intros Hdraw Hopen Hw.
  destruct (Randomize_defined seed draw now (ReadStrings fs "Input.txt" []) Hdraw)
    as [v' Hv'].
  exists v', (WriteStrings fs "Output.txt" v').
  pose proof (Randomize_Permutation _ _ _ _ _ Hv') as Hperm.
  rewrite ReadStrings_ifstream, Hopen in Hperm.
  assert (Forall (λ l, l ≠ [] ∧ newline ∉ l) v') as Hall
    by (rewrite Hperm; apply nonblank_lines_Forall).
  assert (Forall (λ l, newline ∉ l) v') as Hnl
    by (eapply Forall_impl; [done|]; by intros s [_ ?]).
  split_and!.
  - by apply main_output.
  - done.
  - by apply WriteStrings_lookup.
  - by apply pieces_records.
  - rewrite line_breaks_records, <-(Permutation_length Hperm).
    assert (sum_list_with line_breaks v' = 0) as ->; [|done].
    clear -Hnl. induction Hnl as [|s v Hs _ IH]; [done|].
    simpl. by rewrite IH, line_breaks_no_newline.
  - intros Hr v0. rewrite ReadStrings_WriteStrings by done.
    by apply nonblank_lines_records.
Qed.

Lemma main_output_lines_witness :
  ∃ v' fs',
    main minstd_seed modulo_draw example_fs 1700000000 = Some (fs', 0%Z)
    ∧ v' ≡ₚ [txt "apple"; txt "banana"; txt " cherry "]
    ∧ contents fs' !! "Output.txt"%string = Some (records v')
    ∧ pieces (records v') = v' ++ [[]]
    ∧ line_breaks (records v') = 3
    ∧ (readable example_fs "Output.txt" = true →
       ∀ v0, ReadStrings fs' "Output.txt" v0 = v').
Proof.
  apply (main_output_lines minstd_seed modulo_draw example_fs 1700000000
           (txt "apple" ++ [newline] ++ [newline] ++ txt "banana" ++ [newline]
            ++ txt " cherry ") modulo_draw_in_range); reflexivity.
Defined.

(** X14.  An input with at most one non-blank line leaves nothing to
    shuffle: whatever the clock reads, and whatever a generator that keeps
    to the requested ranges draws, [main] writes that line (or nothing) to
    [Output.txt]. *)
Theorem main_single_line {G : Type} (seed : Z → G)
    (draw : nat → nat → G → nat * G) (fs : filesystem) (now : Z)
    (infile : list ascii) :
  in_range draw →
  ifstream fs "Input.txt" = Some infile →
  length (nonblank_lines infile) ≤ 1 →
  main seed draw fs now
  = Some (WriteStrings fs "Output.txt" (nonblank_lines infile), 0%Z).
Proof.
  intros Hdraw Hopen Hlen. apply main_output.
  rewrite ReadStrings_ifstream, Hopen. by apply Randomize_short.
Qed.

Lemma main_single_line_witness :
  main minstd_seed modulo_draw one_line_fs 1700000000
  = Some (WriteStrings one_line_fs "Output.txt" [txt "only"], 0%Z).
Proof.
  apply (main_single_line minstd_seed modulo_draw one_line_fs 1700000000
           (newline :: txt "only" ++ [newline; newline]) modulo_draw_in_range).
  - reflexivity.
  - vm_compute. lia.
Defined.
